(** * pipeline: step composition, middleware, conditionals and fan-out

    A shallow embedding of [pipeline.go] (package [pipeline]) and the
    properties of its execution model.

    Go function values may have side effects (the tests append to a log
    captured by a closure), so every function value of the source is a
    state-passing function over a world [W] that stands for everything
    the closures can reach.  A Go [error] is [option E]: [None] is [nil].
    Functions are total: a step that panics or never returns is outside
    the model. *)

From Stdlib Require Import ZArith String.
From stdpp Require Import base list.

Set Default Proof Using "Type".

(** ** Effects *)

(** A computation that may read and change the world. *)
Definition Eff (W A : Type) : Type := W → A * W.

Definition eff_ret {W A} (a : A) : Eff W A := λ w, (a, w).

Definition eff_bind {W A B} (m : Eff W A) (k : A → Eff W B) : Eff W B :=
  λ w, let (a, w') := m w in k a w'.

Declare Scope eff_scope.
Delimit Scope eff_scope with eff.
Notation "'let*' x ':=' m 'in' k" := (eff_bind m (λ x, k))
  (at level 10, x pattern, m at level 100, k at level 200) : eff_scope.
Local Open Scope eff_scope.

(** The zero value of a Go type, as [make([]T, n)] fills a slice with. *)
Class ZeroValue (T : Type) : Type := zero_value : T.

(** ** The package *)

Section pipeline.
Context {T E W : Type}.

(** [type StepFunc[T any] func(T) (T, error)] *)
Definition StepFunc : Type := T → Eff W (T * option E).

(** [type Middleware[T any] func(next StepFunc[T]) StepFunc[T]].
    Wrapping itself is taken to be free of effects: the effects of a
    middleware are those of the step it returns. *)
Definition Middleware : Type := StepFunc → StepFunc.

(** [type Pipeline[T any] struct { steps ; middlewares }].
    A value of this record is the state of a pipeline object at one
    moment; [Use] and [Then] give its next state.  This follows a
    pipeline built by a chain of calls and then run; a pipeline that is
    changed while another function value still refers to it is not
    modelled. *)
Record Pipeline : Type := mkPipeline {
  steps : list StepFunc;
  middlewares : list Middleware;
}.

(** [func New[T any]() *Pipeline[T]] *)
Definition New : Pipeline := {| steps := []; middlewares := [] |}.

(** [func (p *Pipeline[T]) Use(mw Middleware[T]) *Pipeline[T]]:
    the receiver is updated in place and returned. *)
Definition Use (mw : Middleware) (p : Pipeline) : Pipeline :=
  {| steps := steps p; middlewares := middlewares p ++ [mw] |}.

(** The loop of [Then]:
    [for i := len(p.middlewares) - 1; i >= 0; i-- { step = p.middlewares[i](step) }].
    The counter [n] is [i + 1].  The index is always in range; the
    [None] branch is never taken. *)
Fixpoint Then_loop (mws : list Middleware) (n : nat) (step : StepFunc) : StepFunc :=
  match n with
  | O => step
  | S i =>
      Then_loop mws i
        (match mws !! i with
         | Some mw => mw step
         | None => step
         end)
  end.

(** [func (p *Pipeline[T]) Then(step StepFunc[T]) *Pipeline[T]] *)
Definition Then (step : StepFunc) (p : Pipeline) : Pipeline :=
  {| steps := steps p ++ [Then_loop (middlewares p) (length (middlewares p)) step];
     middlewares := middlewares p |}.

(** The loop of [Execute]: [for _, s := range p.steps { ... }]. *)
Fixpoint Execute_loop (ss : list StepFunc) (curr : T) : Eff W (T * option E) :=
  match ss with
  | [] => eff_ret (curr, None)
  | s :: rest =>
      let* (curr', err) := s curr in
      match err with
      | Some e => eff_ret (curr', Some e)
      | None => Execute_loop rest curr'
      end
  end.

(** [func (p *Pipeline[T]) Execute(input T) (T, error)] *)
Definition Execute (p : Pipeline) (input : T) : Eff W (T * option E) :=
  Execute_loop (steps p) input.

(** [func Wrap[T any](f func(T) T) StepFunc[T]] *)
Definition Wrap (f : T → Eff W T) : StepFunc :=
  λ input, let* r := f input in eff_ret (r, None).

(** [func Conditional[T any](predicate func(T) bool, thenStep, elseStep StepFunc[T]) StepFunc[T]] *)
Definition Conditional (predicate : T → Eff W bool) (thenStep elseStep : StepFunc) : StepFunc :=
  λ input,
    let* b := predicate input in
    if b : bool then thenStep input else elseStep input.

(** *** Parallel *)

(** The two slices [results] and [errs] of one invocation. *)
Definition Slots : Type := list T * list (option E).

(** The body of one goroutine: [results[idx], errs[idx] = s(input)]. *)
Definition branch_body (idx : nat) (s : StepFunc) (input : T) (sl : Slots) : Eff W Slots :=
  let* (r, e) := s input in
  eff_ret (<[idx := r]> sl.1, <[idx := e]> sl.2).

(** The goroutines between [wg.Add] and [wg.Wait].  A branch is a black
    box, so its effect on the world is one transition, and the
    scheduler's freedom is the order [sched] in which the transitions
    of the branches happen: a permutation of the indices of [steps].
    An index outside [steps] names no goroutine. *)
Fixpoint fan_out (ss : list StepFunc) (input : T) (sched : list nat) (sl : Slots)
    : Eff W Slots :=
  match sched with
  | [] => eff_ret sl
  | idx :: rest =>
      match ss !! idx with
      | Some s => let* sl' := branch_body idx s input sl in fan_out ss input rest sl'
      | None => fan_out ss input rest sl
      end
  end.

(** [for _, err := range errs { if err != nil { return results[0], err } }]:
    the error the scan stops at, if any. *)
Fixpoint scan_errs (errs : list (option E)) : option E :=
  match errs with
  | [] => None
  | Some e :: _ => Some e
  | None :: rest => scan_errs rest
  end.

(** [func Parallel[T any](combiner func([]T) (T, error), steps ...StepFunc[T]) StepFunc[T]],
    under the schedule [sched].  [results[0]] is read only when [errs]
    is not empty, so it is in range. *)
Definition Parallel `{!ZeroValue T} (sched : list nat)
    (combiner : list T → Eff W (T * option E)) (ss : list StepFunc) : StepFunc :=
  λ input,
    let results := replicate (length ss) zero_value in
    let errs := replicate (length ss) None in
    let* sl := fan_out ss input sched (results, errs) in
    match scan_errs sl.2 with
    | Some e => eff_ret (default zero_value (sl.1 !! 0), Some e)
    | None => combiner sl.1
    end.

End pipeline.

Global Arguments StepFunc : clear implicits.
Global Arguments Middleware : clear implicits.
Global Arguments Pipeline : clear implicits.
Global Arguments Slots : clear implicits.

(** ** What the branches of a fan-out do, branch by branch

    These definitions say, without the slices of [Parallel], what each
    branch sees and produces under a schedule. *)

Section outcomes.
Context {T E W : Type}.
Implicit Types (ss : list (StepFunc T E W)) (sched : list nat).

(** The transition of the world made by branch [idx]. *)
Definition branch_effect ss (input : T) (idx : nat) (w : W) : W :=
  match (ss !! idx : option (StepFunc T E W)) with
  | Some s => (s input w).2
  | None => w
  end.

(** The world once every branch of [sched] has run. *)
Definition world_after ss (input : T) sched (w : W) : W :=
  foldl (λ w' idx, branch_effect ss input idx w') w sched.

(** The world in which branch [i] starts: the branches scheduled before
    it have run. *)
Fixpoint world_before ss (input : T) sched (i : nat) (w : W) : W :=
  match sched with
  | [] => w
  | idx :: rest =>
      if decide (idx = i) then w
      else world_before ss input rest i (branch_effect ss input idx w)
  end.

(** What branch [i] returns. *)
Definition branch_outcome ss (input : T) sched (w : W) (i : nat) : option (T * option E) :=
  match (ss !! i : option (StepFunc T E W)) with
  | Some s => Some (s input (world_before ss input sched i w)).1
  | None => None
  end.

(** The values and the errors of the branches, in the order of [ss]. *)
Definition branch_results ss (input : T) sched (w : W) : list T :=
  imap (λ i (s : StepFunc T E W), (s input (world_before ss input sched i w)).1.1) ss.

Definition branch_errs ss (input : T) sched (w : W) : list (option E) :=
  imap (λ i (s : StepFunc T E W), (s input (world_before ss input sched i w)).1.2) ss.

(** [AllSucceed ss x w y w']: run one after the other from value [x] in
    world [w], the steps [ss] all report success and leave value [y] in
    world [w']. *)
Inductive AllSucceed : list (StepFunc T E W) → T → W → T → W → Prop :=
  | AllSucceed_nil x w : AllSucceed [] x w x w
  | AllSucceed_cons s rest x w y w1 z w2 :
      s x w = ((y, None), w1) →
      AllSucceed rest y w1 z w2 →
      AllSucceed (s :: rest) x w z w2.

(** A step that never fails, with the function [g] it computes. *)
Definition always_succeeds (s : StepFunc T E W) (g : T → Eff W T) : Prop :=
  ∀ x w, s x w = (((g x w).1, None), (g x w).2).

(** The composition of functions applied in list order. *)
Fixpoint compose_all (gs : list (T → Eff W T)) (x : T) : Eff W T :=
  match gs with
  | [] => eff_ret x
  | g :: rest => let* y := g x in compose_all rest y
  end.

(** A function without effects, as a function value of the source. *)
Definition pure_fn {A B : Type} (g : A → B) : A → Eff W B := λ x, eff_ret (g x).

(** Registering the steps [ss], in order, on a pipeline. *)
Definition Then_all ss (p : Pipeline T E W) : Pipeline T E W :=
  foldl (λ q s, Then s q) p ss.

(** The shape of the middleware of [TestPipeline_Middleware]: logic
    before the call of [next], the call, logic after it, and the result
    of [next] returned as it is. *)
Definition around (before : T → W → W) (after : T → W → W) : Middleware T E W :=
  λ next x w,
    let w1 := before x w in
    let (r, w2) := next x w1 in
    (r, after r.1 w2).

End outcomes.

(** ** Observing calls

    A probe makes the calls of a function value visible: the probed
    function does what the function does and appends a mark to a log
    that the function itself cannot reach. *)

Section probes.
Context {T E W C : Type}.

Definition probe {A B : Type} (c : A → C) (f : A → Eff W B) : A → Eff (W * list C) B :=
  λ a wl, let (b, w') := f a wl.1 in (b, (w', wl.2 ++ [c a])).

(** The steps of a list, each probed with its position. *)
Fixpoint probe_steps (c : nat → T → C) (i : nat) (ss : list (StepFunc T E W))
    : list (StepFunc T E (W * list C)) :=
  match ss with
  | [] => []
  | s :: rest => probe (c i) s :: probe_steps c (S i) rest
  end.

End probes.

(** The marks left by the calls the package makes. *)
Inductive Call (T : Type) : Type :=
  | StepCall (i : nat) (arg : T)
  | PredicateCall (arg : T)
  | ThenCall (arg : T)
  | ElseCall (arg : T)
  | CombinerCall (args : list T).
Global Arguments StepCall {T} i arg.
Global Arguments PredicateCall {T} arg.
Global Arguments ThenCall {T} arg.
Global Arguments ElseCall {T} arg.
Global Arguments CombinerCall {T} args.

(** ** The closures of the tests

    Go's [int] is a 64-bit two's complement integer. *)

Definition wrap_int (z : Z) : Z := ((z + 2 ^ 63) `mod` 2 ^ 64 - 2 ^ 63)%Z.

(** [func(x int) int { return x + 1 }] and its siblings. *)
Definition inc (x : Z) : Z := wrap_int (x + 1).
Definition dbl (x : Z) : Z := wrap_int (x * 2).
Definition dec (x : Z) : Z := wrap_int (x - 1).

(** [func(x int) bool { return x%2 == 0 }]; Go's [%] truncates. *)
Definition is_even (x : Z) : bool := (Z.rem x 2 =? 0)%Z.

(** The [combiner] of [TestPipeline_Parallel]. *)
Definition sum_combiner {W : Type} (results : list Z) : Eff W (Z * option string) :=
  eff_ret (foldl (λ sum v, wrap_int (sum + v)) 0%Z results, None).

(** The second step of [TestPipeline_Error]. *)
Definition fail_step {W : Type} : StepFunc Z string W :=
  λ x, eff_ret (x, Some "failure"%string).

(** A step that counts its calls in the world, then doubles. *)
Definition counting_dbl : StepFunc Z string nat :=
  λ x n, ((dbl x, None), S n).

(** A branch that fails with its own partial output. *)
Definition fail_with (out : Z) {W : Type} : StepFunc Z string W :=
  λ _, eff_ret (out, Some "failure"%string).

(** The [mw] of [TestPipeline_Middleware], with a tag to tell two of
    them apart: it logs before and after the call of [next]. *)
Definition logging_mw (tag : string) : Middleware Z string (list (string * string * Z)) :=
  around (λ x logs, logs ++ [(tag, "before"%string, x)])
         (λ res logs, logs ++ [(tag, "after"%string, res)]).

Global Instance int_zero : ZeroValue Z := 0%Z.

(** ** Sequences of builder calls, and steps without failure or effect *)

Section building.
Context {T E W : Type}.

(** One call on the builder: [p.Use(mw)] or [p.Then(step)]. *)
Inductive BuilderCall : Type :=
  | DoUse (mw : Middleware T E W)
  | DoThen (step : StepFunc T E W).

Definition builder_call (p : Pipeline T E W) (c : BuilderCall) : Pipeline T E W :=
  match c with
  | DoUse mw => Use mw p
  | DoThen step => Then step p
  end.

(** A chain of calls, [p.Use(..).Then(..)...], in the order written. *)
Definition build (cs : list BuilderCall) (p : Pipeline T E W) : Pipeline T E W :=
  foldl builder_call p cs.

(** The steps a chain of calls is expected to register when [mws] is
    the middleware registered before it: each step wrapped in the
    middleware of the [Use] calls that precede it, the first registered
    outermost. *)
Fixpoint registered (mws : list (Middleware T E W)) (cs : list BuilderCall)
    : list (StepFunc T E W) :=
  match cs with
  | [] => []
  | DoUse mw :: rest => registered (mws ++ [mw]) rest
  | DoThen step :: rest => foldr (λ mw s, mw s) step mws :: registered mws rest
  end.

(** The middleware of the [Use] calls of a chain, in order. *)
Fixpoint used (cs : list BuilderCall) : list (Middleware T E W) :=
  match cs with
  | [] => []
  | DoUse mw :: rest => mw :: used rest
  | DoThen _ :: rest => used rest
  end.

(** A step that reports success on every input in every world. *)
Definition never_fails (s : StepFunc T E W) : Prop :=
  ∀ x w, (s x w).1.2 = None.

(** A step that leaves the world as it found it. *)
Definition keeps_world (s : StepFunc T E W) : Prop :=
  ∀ x w, (s x w).2 = w.

End building.

(** * Properties *)

Section facts.
Context {T E W : Type}.
Implicit Types (ss pre post : list (StepFunc T E W)) (s step : StepFunc T E W).
Implicit Types (p : Pipeline T E W).

(** The loop of [Then] nests the middleware, first registered outermost. *)
Lemma Then_loop_app (mws rest : list (Middleware T E W)) step :
  Then_loop (mws ++ rest) (length mws) step = foldr (λ mw s, mw s) step mws.
Proof.
  revert rest step. induction mws as [|mw mws IH] using rev_ind; intros rest step.
  - reflexivity.
  - rewrite length_app, Nat.add_1_r. cbn [Then_loop].
    rewrite <- app_assoc. rewrite IH.
    cbn [app]. rewrite list_lookup_middle by done.
    by rewrite foldr_app.
Qed.

Lemma Then_loop_foldr (mws : list (Middleware T E W)) step :
  Then_loop mws (length mws) step = foldr (λ mw s, mw s) step mws.
Proof.
  rewrite <- (app_nil_r mws) at 1. apply Then_loop_app.
Qed.

Lemma steps_Then step p :
  steps (Then step p) = steps p ++ [foldr (λ mw s, mw s) step (middlewares p)].
Proof. unfold Then. cbn. by rewrite Then_loop_foldr. Qed.

Lemma steps_Then_all ss p :
  middlewares p = [] → steps (Then_all ss p) = steps p ++ ss.
Proof.
  revert p. induction ss as [|s ss IH]; intros p Hp; cbn.
  - by rewrite app_nil_r.
  - unfold Then_all in IH. rewrite IH by done.
    rewrite steps_Then, Hp. cbn. by rewrite <- app_assoc.
Qed.

(** The steps that succeed hand their value and world to the rest. *)
Lemma Execute_loop_app pre post x w y w1 :
  AllSucceed pre x w y w1 →
  Execute_loop (pre ++ post) x w = Execute_loop post y w1.
Proof.
  induction 1 as [|s rest x w y w1 z w2 Hs _ IH]; [done|].
  cbn. unfold eff_bind. rewrite Hs. apply IH.
Qed.

Lemma Execute_loop_always ss (gs : list (T → Eff W T)) x w :
  Forall2 always_succeeds ss gs →
  Execute_loop ss x w = (((compose_all gs x w).1, None), (compose_all gs x w).2).
Proof.
  intros H. revert x w. induction H as [|s g ss gs Hs _ IH]; intros x w; [done|].
  cbn. unfold eff_bind. rewrite Hs. rewrite IH.
  by destruct (g x w).
Qed.

Lemma Wrap_always_succeeds (f : T → Eff W T) : always_succeeds (E:=E) (Wrap f) f.
Proof. intros x w. unfold Wrap, eff_bind, eff_ret. by destruct (f x w). Qed.

Lemma compose_all_pure (gs : list (T → T)) x (w : W) :
  compose_all (pure_fn <$> gs) x w = (foldl (λ a g, g a) x gs, w).
Proof.
  revert x. induction gs as [|g gs IH]; intros x; [done|].
  cbn. unfold eff_bind, pure_fn at 1, eff_ret. apply IH.
Qed.

End facts.

Section fan_out_facts.
Context {T E W : Type}.
Implicit Types (ss : list (StepFunc T E W)) (s : StepFunc T E W) (sched : list nat).

Lemma world_after_cons ss input idx sched (w : W) :
  world_after ss input (idx :: sched) w
  = world_after ss input sched (branch_effect ss input idx w).
Proof. reflexivity. Qed.

Lemma branch_outcome_head ss input idx sched (w : W) s :
  ss !! idx = Some s →
  branch_outcome ss input (idx :: sched) w idx = Some (s input w).1.
Proof.
  intros Hs. unfold branch_outcome. rewrite Hs. cbn.
  by rewrite decide_True.
Qed.

Lemma branch_outcome_tail ss input idx sched (w : W) i :
  idx ≠ i →
  branch_outcome ss input (idx :: sched) w i
  = branch_outcome ss input sched (branch_effect ss input idx w) i.
Proof.
  intros Hne. unfold branch_outcome. cbn. by rewrite decide_False.
Qed.

Lemma fan_out_cons ss input idx sched (sl : Slots T E) (w : W) (s : StepFunc T E W) :
  ss !! idx = Some s →
  fan_out ss input (idx :: sched) sl w
  = fan_out ss input sched
      (<[idx := (s input w).1.1]> sl.1, <[idx := (s input w).1.2]> sl.2)
      (s input w).2.
Proof.
  intros Hs. cbn [fan_out]. rewrite Hs.
  unfold eff_bind, branch_body, eff_bind, eff_ret.
  by destruct (s input w) as [[r e] w'].
Qed.

(** The slices after the goroutines have run: a scheduled branch has
    written its own slot, and only that one. *)
Lemma fan_out_slots ss input sched : ∀ rs es (w : W),
  NoDup sched →
  (∀ idx, idx ∈ sched → idx < length ss) →
  length rs = length ss → length es = length ss →
  ∃ rs' es',
    fan_out ss input sched (rs, es) w = ((rs', es'), world_after ss input sched w)
    ∧ length rs' = length ss ∧ length es' = length ss
    ∧ ∀ i,
        (i ∈ sched →
           rs' !! i = fst <$> branch_outcome ss input sched w i
           ∧ es' !! i = snd <$> branch_outcome ss input sched w i)
        ∧ (i ∉ sched → rs' !! i = rs !! i ∧ es' !! i = es !! i).
Proof.
  induction sched as [|idx rest IH]; intros rs es w Hnd Hin Hrs Hes.
  - exists rs, es. do 3 (split; [done|]). intros i.
    split; [intros Hi; by apply not_elem_of_nil in Hi | done].
  - apply NoDup_cons in Hnd as [Hidx Hnd].
    assert (Hlt : idx < length ss) by (apply Hin; left).
    destruct (lookup_lt_is_Some_2 ss idx Hlt) as [s Hs].
    rewrite (fan_out_cons _ _ _ _ _ _ _ Hs). cbn [fst snd].
    rewrite world_after_cons.
    assert (Heff : branch_effect ss input idx w = (s input w).2)
      by (unfold branch_effect; by rewrite Hs).
    rewrite Heff.
    destruct (s input w) as [[r e] w'] eqn:Hrun. cbn [snd].
    destruct (IH (<[idx:=r]> rs) (<[idx:=e]> es) w') as (rs' & es' & Hfo & Hlr & Hle & Hslots).
    { done. }
    { intros j Hj. apply Hin. by right. }
    { by rewrite length_insert. }
    { by rewrite length_insert. }
    exists rs', es'. split; [done|]. split; [done|]. split; [done|].
    intros i. destruct (decide (idx = i)) as [->|Hne].
    + split.
      * intros _. rewrite (branch_outcome_head _ _ _ _ _ _ Hs), Hrun. cbn.
        destruct (Hslots i) as [_ Hout]. destruct (Hout Hidx) as [-> ->].
        rewrite !list_lookup_insert_eq by lia. done.
      * intros Hni. exfalso. apply Hni. left.
    + rewrite (branch_outcome_tail _ _ _ _ _ _ Hne), Heff.
      destruct (Hslots i) as [Hin' Hout]. split.
      * intros Hi. apply elem_of_cons in Hi as [->|Hi]; [done|]. by apply Hin'.
      * intros Hni. rewrite not_elem_of_cons in Hni. destruct Hni as [_ Hni].
        destruct (Hout Hni) as [-> ->].
        by rewrite !list_lookup_insert_ne.
Qed.

(** Under a schedule that runs every branch once, the slices hold what
    the branches returned, in the order of the step list. *)
Lemma fan_out_complete ss input sched (z : T) (w : W) :
  sched ≡ₚ seq 0 (length ss) →
  fan_out ss input sched (replicate (length ss) z, replicate (length ss) None) w
  = ((branch_results ss input sched w, branch_errs ss input sched w),
     world_after ss input sched w).
Proof.
  intros Hperm.
  destruct (fan_out_slots ss input sched (replicate (length ss) z)
              (replicate (length ss) None) w) as (rs' & es' & -> & Hlr & Hle & Hslots).
  { rewrite Hperm. apply NoDup_seq. }
  { intros idx Hidx. rewrite Hperm in Hidx. apply elem_of_seq in Hidx. lia. }
  { apply length_replicate. }
  { apply length_replicate. }
  assert (Hall : ∀ i, rs' !! i = branch_results ss input sched w !! i
                      ∧ es' !! i = branch_errs ss input sched w !! i).
  { intros i. unfold branch_results, branch_errs. rewrite !list_lookup_imap.
    destruct (decide (i < length ss)) as [Hlt|Hge].
    - destruct (Hslots i) as [Hin _].
      destruct Hin as [-> ->]. { rewrite Hperm. apply elem_of_seq. lia. }
      unfold branch_outcome. by destruct (ss !! i).
    - rewrite !lookup_ge_None_2 by lia. done. }
  f_equal. f_equal; apply list_eq; intros i; apply Hall.
Qed.

Lemma fan_out_nil input sched (sl : Slots T E) :
  fan_out (W:=W) [] input sched sl = eff_ret sl.
Proof. induction sched as [|idx rest IH]; [done|]. cbn. apply IH. Qed.

(** The scan stops at the first error of the slice. *)
Lemma scan_errs_first (es : list (option E)) k e :
  es !! k = Some (Some e) →
  (∀ j, j < k → es !! j = Some None) →
  scan_errs es = Some e.
Proof.
  revert k. induction es as [|o es IH]; intros k Hk Hbefore; [done|].
  destruct k as [|k].
  - cbn in Hk. by simplify_eq.
  - pose proof (Hbefore 0 ltac:(lia)) as H0. cbn in H0. simplify_eq. cbn.
    apply (IH k); [done|]. intros j Hj. apply (Hbefore (S j)). lia.
Qed.

Lemma scan_errs_none (es : list (option E)) :
  (∀ j, j < length es → es !! j = Some None) →
  scan_errs es = None.
Proof.
  induction es as [|o es IH]; intros Hall; [done|].
  pose proof (Hall 0 ltac:(cbn; lia)) as H0. cbn in H0. simplify_eq. cbn.
  apply IH. intros j Hj. apply (Hall (S j)). cbn. lia.
Qed.

Lemma length_branch_errs ss input sched (w : W) :
  length (branch_errs ss input sched w) = length ss.
Proof. unfold branch_errs. apply length_imap. Qed.

Lemma length_branch_results ss input sched (w : W) :
  length (branch_results ss input sched w) = length ss.
Proof. unfold branch_results. apply length_imap. Qed.

End fan_out_facts.

Section probe_facts.
Context {T E W C : Type}.
Implicit Types (ss pre : list (StepFunc T E W)) (s : StepFunc T E W).
Implicit Types (sched : list nat) (l : list C).

Lemma probe_run {A B : Type} (c : A → C) (f : A → Eff W B) a w l :
  probe c f a (w, l) = ((f a w).1, ((f a w).2, l ++ [c a])).
Proof. unfold probe. cbn. by destruct (f a w). Qed.

Lemma length_probe_steps (c : nat → T → C) i ss :
  length (probe_steps c i ss) = length ss.
Proof. revert i. induction ss as [|s ss IH]; intros i; cbn; [done|]. by rewrite IH. Qed.

Lemma probe_steps_lookup (c : nat → T → C) i ss j s :
  ss !! j = Some s →
  probe_steps c i ss !! j = Some (probe (c (i + j)) s).
Proof.
  revert i j. induction ss as [|s' ss IH]; intros i j Hj; [done|].
  destruct j as [|j]; cbn in *.
  - simplify_eq. by rewrite Nat.add_0_r.
  - replace (i + S j) with (S i + j) by lia. by apply IH.
Qed.

Lemma probe_steps_app (c : nat → T → C) i ss1 ss2 :
  probe_steps c i (ss1 ++ ss2)
  = probe_steps c i ss1 ++ probe_steps c (i + length ss1) ss2.
Proof.
  revert i. induction ss1 as [|s ss1 IH]; intros i; cbn.
  - by rewrite Nat.add_0_r.
  - rewrite IH. do 3 f_equal. lia.
Qed.

(** The probed branches do what the branches do, and leave one mark for
    each scheduled branch, in the order of the schedule. *)
Lemma fan_out_probe (c : nat → T → C) ss input sched : ∀ (sl : Slots T E) w l,
  (∀ idx, idx ∈ sched → idx < length ss) →
  fan_out (probe_steps c 0 ss) input sched sl (w, l)
  = ((fan_out ss input sched sl w).1,
     ((fan_out ss input sched sl w).2, l ++ map (λ idx, c idx input) sched)).
Proof.
  induction sched as [|idx rest IH]; intros sl w l Hin.
  - cbn. by rewrite app_nil_r.
  - assert (Hlt : idx < length ss) by (apply Hin; left).
    destruct (lookup_lt_is_Some_2 ss idx Hlt) as [s Hs].
    rewrite (fan_out_cons _ _ _ _ _ _ _ Hs).
    rewrite (fan_out_cons _ _ _ _ _ _ _ (probe_steps_lookup c 0 ss idx s Hs)).
    rewrite probe_run. cbn [fst snd].
    rewrite IH by (intros j Hj; apply Hin; by right).
    cbn [map]. by rewrite <- app_assoc.
Qed.

Lemma Parallel_probe `{!ZeroValue T} (c : nat → T → C) (cc : list T → C)
    (combiner : list T → Eff W (T * option E)) ss sched input w l :
  (∀ idx, idx ∈ sched → idx < length ss) →
  Parallel sched (probe cc combiner) (probe_steps c 0 ss) input (w, l)
  = let r := fan_out ss input sched
               (replicate (length ss) zero_value, replicate (length ss) None) w in
    let l1 := l ++ map (λ idx, c idx input) sched in
    match scan_errs r.1.2 with
    | Some e => ((default zero_value (r.1.1 !! 0), Some e), (r.2, l1))
    | None => ((combiner r.1.1 r.2).1, ((combiner r.1.1 r.2).2, l1 ++ [cc r.1.1]))
    end.
Proof.
  intros Hin. unfold Parallel, eff_bind. rewrite length_probe_steps.
  rewrite fan_out_probe by done. cbn zeta.
  destruct (scan_errs _); [done|]. by rewrite probe_run.
Qed.

(** Probed with their positions, the steps of a run that succeeds leave
    their positions in order. *)
Lemma AllSucceed_probe pre i x w y w1 (l : list nat) :
  AllSucceed pre x w y w1 →
  AllSucceed (probe_steps (λ j _, j) i pre) x (w, l) y (w1, l ++ seq i (length pre)).
Proof.
  intros H. revert i l. induction H as [|s rest x w y w1 z w2 Hs _ IH]; intros i l.
  - cbn. rewrite app_nil_r. constructor.
  - cbn [probe_steps length seq].
    apply (AllSucceed_cons _ _ _ _ y (w1, l ++ [i])).
    + unfold probe. cbn. by rewrite Hs.
    + replace (l ++ i :: seq (S i) (length rest))
        with ((l ++ [i]) ++ seq (S i) (length rest)) by (by rewrite <- app_assoc).
      apply IH.
Qed.

End probe_facts.

(** ** Execute *)

(** C8. Executing any pipeline whose step list is empty returns the
    input unchanged with no failure and leaves the world as it was,
    whatever middleware is registered.  The pipeline [New] makes, and
    every pipeline reached from it by [Use] calls alone, is such a
    pipeline. *)
Theorem Execute_no_steps {T E W : Type} (p : Pipeline T E W)
    (mws : list (Middleware T E W)) (x : T) (w : W) :
  steps p = [] →
  Execute p x w = ((x, None), w)
  ∧ Execute (foldl (λ q mw, Use mw q) New mws) x w = ((x, None), w).
Proof.
  intros Hp. split.
  - unfold Execute. by rewrite Hp.
  - assert (Hsteps : ∀ q : Pipeline T E W,
              steps (foldl (λ q' mw, Use mw q') q mws) = steps q).
    { induction mws as [|mw mws' IH]; intros q; [done|]. cbn [foldl]. by rewrite IH. }
    unfold Execute. by rewrite Hsteps.
Qed.

(** A pipeline with a middleware that would turn every step into a
    failing one, and no step: the input comes back as it is. *)
Lemma Execute_no_steps_witness :
  steps (Use (λ _, fail_with 20%Z) (New (W:=unit))) = []
  ∧ Execute (Use (λ _, fail_with 20%Z) (New (W:=unit))) 3%Z tt = ((3%Z, None), tt).
Proof.
  split; [reflexivity|].
  exact (proj1 (Execute_no_steps (Use (λ _, fail_with 20%Z) (New (W:=unit))) []
                  3%Z tt eq_refl)).
Defined.

(** C4. On a pipeline built without middleware from steps that always
    succeed, [Execute] returns the composition of the functions the
    steps compute, applied in registration order, with no failure.  The
    steps [Wrap f] are such steps, and for functions without effects the
    result is the plain left-to-right composition. *)
Theorem Execute_composition {T E W : Type} (ss : list (StepFunc T E W))
    (gs : list (T → Eff W T)) (fs : list (T → T)) (x : T) (w : W) :
  Forall2 always_succeeds ss gs →
  Execute (Then_all ss New) x w
    = (((compose_all gs x w).1, None), (compose_all gs x w).2)
  ∧ Execute (E:=E) (Then_all (Wrap <$> (pure_fn <$> fs)) New) x w
    = ((foldl (λ a f, f a) x fs, None), w)
  ∧ ∀ f : T → Eff W T, always_succeeds (E:=E) (Wrap f) f.
Proof.
  intros Hall. split; [|split].
  - unfold Execute. rewrite steps_Then_all by done. cbn.
    by apply Execute_loop_always.
  - unfold Execute. rewrite steps_Then_all by done. cbn.
    rewrite (Execute_loop_always _ (pure_fn <$> fs)).
    + by rewrite compose_all_pure.
    + apply Forall2_fmap_l, Forall_Forall2_diag, Forall_forall.
      intros f _. apply Wrap_always_succeeds.
  - apply Wrap_always_succeeds.
Qed.

(** [TestPipeline_Success]: [x + 1] then [x * 2] on 3 is 8. *)
Lemma Execute_composition_witness :
  Forall2 always_succeeds
    [Wrap (E:=string) (W:=unit) (pure_fn inc); Wrap (pure_fn dbl)]
    [pure_fn inc; pure_fn dbl]
  ∧ Execute (E:=string) (Then (Wrap (pure_fn dbl)) (Then (Wrap (pure_fn inc)) New)) 3%Z tt
    = ((8%Z, None), tt).
Proof.
  assert (H : Forall2 always_succeeds
            [Wrap (E:=string) (W:=unit) (pure_fn inc); Wrap (pure_fn dbl)]
            [pure_fn inc; pure_fn dbl])
    by (repeat constructor; apply Wrap_always_succeeds).
  split; [exact H|].
  exact (proj1 (Execute_composition _ _ [] 3%Z tt H)).
Defined.

(** C2. When the steps before the k-th all succeed and the k-th fails,
    [Execute] returns the value and the failure that the k-th step
    returned, in the world that step left; the steps after it are not
    called: probed with their positions, exactly the steps [0 .. k]
    leave a mark. *)
Theorem Execute_short_circuit {T E W : Type} (p : Pipeline T E W)
    (pre post : list (StepFunc T E W)) (s : StepFunc T E W)
    (x y z : T) (w w1 w2 : W) (e : E) :
  steps p = pre ++ s :: post →
  AllSucceed pre x w y w1 →
  s y w1 = ((z, Some e), w2) →
  Execute p x w = ((z, Some e), w2)
  ∧ Execute {| steps := probe_steps (λ j _, j) 0 (steps p); middlewares := [] |} x (w, [])
    = ((z, Some e), (w2, seq 0 (S (length pre)))).
Proof.
  intros Hp Hpre Hs. unfold Execute. cbn [steps]. rewrite Hp. split.
  - rewrite (Execute_loop_app _ _ _ _ _ _ Hpre). cbn. unfold eff_bind. by rewrite Hs.
  - rewrite probe_steps_app.
    rewrite (Execute_loop_app _ _ _ _ _ _ (AllSucceed_probe pre 0 x w y w1 [] Hpre)).
    cbn [probe_steps Execute_loop]. unfold eff_bind. rewrite probe_run, Hs.
    rewrite seq_S. reflexivity.
Qed.

(** [TestPipeline_Error]: the second of three steps fails and returns
    its input 4, which is what [Execute] returns. *)
Example Error_test :
  Execute (W:=unit)
    (Then (λ x, eff_ret (dbl x, None)) (Then fail_step (Then (λ x, eff_ret (inc x, None)) New)))
    3%Z tt
  = ((4%Z, Some "failure"%string), tt).
Proof. reflexivity. Qed.

(** A second step that fails with the partial output 20 and a third
    step that counts its calls: the output is 20, not the 4 fed to the
    failing step, and the counter stays at 0. *)
Lemma Execute_short_circuit_witness :
  steps (Then counting_dbl (Then (fail_with 20%Z) (Then (Wrap (pure_fn inc)) New)))
    = [Wrap (pure_fn inc)] ++ fail_with 20%Z :: [counting_dbl]
  ∧ AllSucceed [Wrap (E:=string) (pure_fn inc)] 3%Z 0 4%Z 0
  ∧ fail_with 20%Z 4%Z 0 = ((20%Z, Some "failure"%string), 0)
  ∧ Execute (Then counting_dbl (Then (fail_with 20%Z) (Then (Wrap (pure_fn inc)) New))) 3%Z 0
    = ((20%Z, Some "failure"%string), 0).
Proof.
  assert (H : AllSucceed [Wrap (E:=string) (pure_fn inc)] 3%Z 0 4%Z 0)
    by (econstructor; [reflexivity | constructor]).
  split; [reflexivity|]. split; [exact H|]. split; [reflexivity|].
  exact (proj1 (Execute_short_circuit
                 (Then counting_dbl (Then (fail_with 20%Z) (Then (Wrap (pure_fn inc)) New)))
                 [Wrap (pure_fn inc)] [counting_dbl] (fail_with 20%Z)
                 3%Z 4%Z 20%Z 0 0 0 "failure"%string eq_refl H eq_refl)).
Defined.

(** ** Middleware *)

(** C3. [Then] registers the step wrapped in the middleware registered
    so far, the first registered outermost and the last registered
    innermost.  With A registered before B, both of the
    before-call-after shape, a run does A's before-logic, B's
    before-logic, the step, B's after-logic, A's after-logic. *)
Theorem Then_onion {T E W : Type} (p : Pipeline T E W) (step : StepFunc T E W) :
  steps (Then step p) = steps p ++ [foldr (λ mw s, mw s) step (middlewares p)]
  ∧ middlewares (Then step p) = middlewares p
  ∧ (∀ A B : Middleware T E W,
       steps (Then step (Use B (Use A p)))
       = steps p ++ [foldr (λ mw s, mw s) (A (B step)) (middlewares p)])
  ∧ (∀ (bA aA bB aB : T → W → W) (x : T) (w : W),
       Execute (Then step (Use (around bB aB) (Use (around bA aA) New))) x w
       = ((step x (bB x (bA x w))).1,
          aA (step x (bB x (bA x w))).1.1
            (aB (step x (bB x (bA x w))).1.1 (step x (bB x (bA x w))).2))).
Proof.
  split; [apply steps_Then|]. split; [done|]. split.
  - intros A B. rewrite steps_Then. cbn.
    by rewrite <- app_assoc, foldr_app.
  - intros bA aA bB aB x w. unfold Execute. rewrite steps_Then. cbn.
    unfold eff_bind, around, eff_ret.
    destruct (step x (bB x (bA x w))) as [[r [e|]] w']; reflexivity.
Qed.

(** [TestPipeline_Middleware], with a second middleware registered after
    the first: the log shows the nesting. *)
Example Middleware_test :
  Execute (E:=string) (Then (Wrap (pure_fn (λ x, wrap_int (x + 2))))
             (Use (logging_mw "B"%string) (Use (logging_mw "A"%string) New))) 1%Z []
  = ((3%Z, None),
     [("A", "before", 1%Z); ("B", "before", 1%Z);
      ("B", "after", 3%Z); ("A", "after", 3%Z)]%string).
Proof. reflexivity. Qed.

(** C5. [Use] appends to the middleware list and leaves the step list
    alone, so a step registered before keeps the wrapping it got when
    [Then] was called: the pipeline runs as before, and a later [Then]
    appends after the steps already there. *)
Theorem Use_after_Then {T E W : Type} (p : Pipeline T E W) (mw : Middleware T E W)
    (step : StepFunc T E W) :
  steps (Use mw p) = steps p
  ∧ middlewares (Use mw p) = middlewares p ++ [mw]
  ∧ steps (Use mw (Then step p)) = steps (Then step p)
  ∧ (∀ x w, Execute (Use mw (Then step p)) x w = Execute (Then step p) x w)
  ∧ (∀ step' : StepFunc T E W,
       steps (Then step' (Use mw (Then step p)))
       = steps (Then step p) ++ [foldr (λ m s, m s) step' (middlewares p ++ [mw])]).
Proof.
  repeat split. intros step'. by rewrite steps_Then.
Qed.

(** ** Conditional *)

(** C7. The step built by [Conditional] evaluates the predicate once on
    the input and then is the chosen branch on the same input: its
    output, its failure and its effects are the branch's.  Probed, a
    run leaves one mark for the predicate and one for the chosen branch,
    none for the other. *)
Theorem Conditional_routes {T E W : Type} (predicate : T → Eff W bool)
    (thenStep elseStep : StepFunc T E W) (input : T) (w : W) :
  Conditional predicate thenStep elseStep input w
    = (if (predicate input w).1
       then thenStep input (predicate input w).2
       else elseStep input (predicate input w).2)
  ∧ (Conditional (probe PredicateCall predicate) (probe ThenCall thenStep)
       (probe ElseCall elseStep) input (w, [])).2.2
    = [PredicateCall input;
       if (predicate input w).1 then ThenCall input else ElseCall input].
Proof.
  unfold Conditional, eff_bind. split.
  - by destruct (predicate input w) as [[|] w1].
  - rewrite probe_run. destruct (predicate input w) as [[|] w1]; cbn [fst snd];
      by rewrite probe_run.
Qed.

(** [TestPipeline_Conditional]: even inputs are incremented, odd ones
    decremented. *)
Example Conditional_test :
  (Conditional (E:=string) (W:=unit) (pure_fn is_even) (Wrap (pure_fn inc)) (Wrap (pure_fn dec)) 4%Z tt).1.1 = 5%Z
  ∧ (Conditional (E:=string) (W:=unit) (pure_fn is_even) (Wrap (pure_fn inc)) (Wrap (pure_fn dec)) 3%Z tt).1.1 = 2%Z.
Proof. split; reflexivity. Qed.

(** ** Parallel *)

(** C1. Under any schedule that runs every branch once: when a branch
    fails, the step returns the failure of the first failing branch in
    list order, paired with what the first branch of the list returned,
    in the world all the branches left.  The combiner is not called:
    probed, a run leaves one mark for each branch and none for the
    combiner. *)
Theorem Parallel_failure {T E W : Type} `{!ZeroValue T} (sched : list nat)
    (combiner : list T → Eff W (T * option E)) (ss : list (StepFunc T E W))
    (input : T) (w : W) (k : nat) (e : E) :
  sched ≡ₚ seq 0 (length ss) →
  branch_errs ss input sched w !! k = Some (Some e) →
  (∀ j, j < k → branch_errs ss input sched w !! j = Some None) →
  ∃ s0 : StepFunc T E W,
    ss !! 0 = Some s0
    ∧ Parallel sched combiner ss input w
      = (((s0 input (world_before ss input sched 0 w)).1.1, Some e),
         world_after ss input sched w)
    ∧ Parallel sched (probe CombinerCall combiner) (probe_steps StepCall 0 ss) input (w, [])
      = (((s0 input (world_before ss input sched 0 w)).1.1, Some e),
         (world_after ss input sched w, map (λ idx, StepCall idx input) sched)).
Proof.
  intros Hperm Hk Hbefore.
  assert (Hlen : 0 < length ss).
  { apply lookup_lt_Some in Hk. rewrite length_branch_errs in Hk. lia. }
  destruct (lookup_lt_is_Some_2 ss 0 Hlen) as [s0 Hs0].
  assert (Hr0 : branch_results ss input sched w !! 0
                = Some (s0 input (world_before ss input sched 0 w)).1.1).
  { unfold branch_results. by rewrite list_lookup_imap, Hs0. }
  exists s0. split; [done|]. split.
  - unfold Parallel, eff_bind. rewrite fan_out_complete by done. cbn [fst snd].
    rewrite (scan_errs_first _ k e) by done. by rewrite Hr0.
  - rewrite Parallel_probe.
    + cbn zeta. rewrite fan_out_complete by done. cbn [fst snd].
      rewrite (scan_errs_first _ k e) by done. by rewrite Hr0.
    + intros idx Hidx. rewrite Hperm in Hidx. apply elem_of_seq in Hidx. lia.
Qed.

(** C6. Under any schedule that runs every branch once: when no branch
    fails, the slot of each position holds what the branch at that
    position returned, and the step is the combiner applied to these
    results in list order, in the world the branches left: the
    combiner's value and failure are the step's.  Probed, a run leaves
    one mark for each branch and then one for the combiner, with the
    results as its argument. *)
Theorem Parallel_success {T E W : Type} `{!ZeroValue T} (sched : list nat)
    (combiner : list T → Eff W (T * option E)) (ss : list (StepFunc T E W))
    (input : T) (w : W) :
  sched ≡ₚ seq 0 (length ss) →
  (∀ j, j < length ss → branch_errs ss input sched w !! j = Some None) →
  Parallel sched combiner ss input w
    = combiner (branch_results ss input sched w) (world_after ss input sched w)
  ∧ length (branch_results ss input sched w) = length ss
  ∧ (∀ i (s : StepFunc T E W), ss !! i = Some s →
       branch_results ss input sched w !! i
       = Some (s input (world_before ss input sched i w)).1.1)
  ∧ Parallel sched (probe CombinerCall combiner) (probe_steps StepCall 0 ss) input (w, [])
    = ((combiner (branch_results ss input sched w) (world_after ss input sched w)).1,
       ((combiner (branch_results ss input sched w) (world_after ss input sched w)).2,
        map (λ idx, StepCall idx input) sched
        ++ [CombinerCall (branch_results ss input sched w)])).
Proof.
  intros Hperm Hnone.
  assert (Hscan : scan_errs (branch_errs ss input sched w) = None).
  { apply scan_errs_none. by rewrite length_branch_errs. }
  split; [|split; [|split]].
  - unfold Parallel, eff_bind. rewrite fan_out_complete by done. cbn [fst snd].
    by rewrite Hscan.
  - apply length_branch_results.
  - intros i s Hs. unfold branch_results. by rewrite list_lookup_imap, Hs.
  - rewrite Parallel_probe.
    + cbn zeta. rewrite fan_out_complete by done. cbn [fst snd].
      by rewrite Hscan.
    + intros idx Hidx. rewrite Hperm in Hidx. apply elem_of_seq in Hidx. lia.
Qed.

(** C10. With no branch, under any schedule, the step is the combiner
    applied to the empty slice: its value, failure and effects are the
    combiner's.  Probed, a run leaves the combiner's mark alone. *)
Theorem Parallel_no_branch {T E W : Type} `{!ZeroValue T} (sched : list nat)
    (combiner : list T → Eff W (T * option E)) (input : T) (w : W) :
  Parallel sched combiner [] input w = combiner [] w
  ∧ Parallel sched (probe CombinerCall combiner) (probe_steps StepCall 0 []) input (w, [])
    = ((combiner [] w).1, ((combiner [] w).2, [CombinerCall []])).
Proof.
  unfold Parallel, eff_bind. cbn [probe_steps length replicate].
  rewrite !fan_out_nil. cbn. split; [done|]. by rewrite probe_run.
Qed.

(** A branch scheduled first fails with 20; the first branch of the list
    still runs, counts its call and returns 6: the step returns 6 with
    the failure, not 20 and not the input 3. *)
Lemma Parallel_failure_witness :
  [1; 0] ≡ₚ seq 0 2
  ∧ branch_errs [counting_dbl; fail_with 20%Z] 3%Z [1; 0] 0 !! 1
    = Some (Some "failure"%string)
  ∧ (∀ j, j < 1 → branch_errs [counting_dbl; fail_with 20%Z] 3%Z [1; 0] 0 !! j
                  = Some None)
  ∧ Parallel [1; 0] sum_combiner [counting_dbl; fail_with 20%Z] 3%Z 0
    = ((6%Z, Some "failure"%string), 1).
Proof.
  assert (Hperm : [1; 0] ≡ₚ seq 0 (length [counting_dbl; fail_with 20%Z]))
    by apply perm_swap.
  assert (Hbefore : ∀ j, j < 1 →
            branch_errs [counting_dbl; fail_with 20%Z] 3%Z [1; 0] 0 !! j = Some None)
    by (intros j Hj; destruct j as [|j]; [reflexivity | lia]).
  split; [exact Hperm|]. split; [reflexivity|]. split; [exact Hbefore|].
  destruct (Parallel_failure [1; 0] sum_combiner [counting_dbl; fail_with 20%Z]
              3%Z 0 1 "failure"%string Hperm eq_refl Hbefore) as (s0 & Hs0 & Hrun & _).
  cbn in Hs0. injection Hs0 as <-. exact Hrun.
Defined.

(** [TestPipeline_Parallel]: branches [x + 1] and [x * 2] on 3 with the
    sum combiner give 10, whichever branch runs first. *)
Lemma Parallel_success_witness :
  [1; 0] ≡ₚ seq 0 2
  ∧ (∀ j, j < 2 →
       branch_errs (E:=string) (W:=unit) [Wrap (pure_fn inc); Wrap (pure_fn dbl)]
         3%Z [1; 0] tt !! j = Some None)
  ∧ Parallel (E:=string) (W:=unit) [1; 0] sum_combiner
      [Wrap (pure_fn inc); Wrap (pure_fn dbl)] 3%Z tt
    = ((10%Z, None), tt).
Proof.
  assert (Hperm : [1; 0] ≡ₚ seq 0 (length [Wrap (E:=string) (W:=unit) (pure_fn inc);
                                            Wrap (pure_fn dbl)]))
    by apply perm_swap.
  assert (Hnone : ∀ j, j < 2 →
            branch_errs (E:=string) (W:=unit) [Wrap (pure_fn inc); Wrap (pure_fn dbl)]
              3%Z [1; 0] tt !! j = Some None)
    by (intros j Hj; destruct j as [|[|j]]; [reflexivity | reflexivity | lia]).
  split; [exact Hperm|]. split; [exact Hnone|].
  exact (proj1 (Parallel_success [1; 0] sum_combiner
                  [Wrap (pure_fn inc); Wrap (pure_fn dbl)] 3%Z tt Hperm Hnone)).
Defined.

(** ** Further properties of the package *)

Section more_facts.
Context {T E W : Type}.
Implicit Types (ss pre post : list (StepFunc T E W)) (s step : StepFunc T E W).
Implicit Types (p q : Pipeline T E W) (sched : list nat).

Lemma Execute_loop_cons s ss x (w : W) :
  Execute_loop (s :: ss) x w
  = match (s x w).1.2 with
    | Some e => s x w
    | None => Execute_loop ss (s x w).1.1 (s x w).2
    end.
Proof.
  cbn. unfold eff_bind, eff_ret. by destruct (s x w) as [[c [e|]] w1].
Qed.

(** A run of [ss1 ++ ss2] is a run of [ss1] and, when that reports no
    failure, a run of [ss2] from where it stopped. *)
Lemma Execute_loop_split ss1 ss2 x (w : W) :
  Execute_loop (ss1 ++ ss2) x w
  = match (Execute_loop ss1 x w).1.2 with
    | Some e => Execute_loop ss1 x w
    | None => Execute_loop ss2 (Execute_loop ss1 x w).1.1 (Execute_loop ss1 x w).2
    end.
Proof.
  revert x w. induction ss1 as [|s ss1 IH]; intros x w; [done|].
  cbn [app]. rewrite !Execute_loop_cons.
  destruct (s x w) as [[c [e|]] w1] eqn:Hs; cbn [fst snd]; [done|]. apply IH.
Qed.

Lemma Execute_loop_success_inv ss x (w : W) y w' :
  Execute_loop ss x w = ((y, None), w') → AllSucceed ss x w y w'.
Proof.
  revert x w. induction ss as [|s ss IH]; intros x w Hrun.
  - cbn in Hrun. unfold eff_ret in Hrun. simplify_eq. constructor.
  - rewrite Execute_loop_cons in Hrun.
    destruct (s x w) as [[c [e|]] w1] eqn:Hs; cbn [fst snd] in Hrun; [done|].
    econstructor; [exact Hs | by apply IH].
Qed.

Lemma Execute_loop_failure_inv ss x (w : W) z e w2 :
  Execute_loop ss x w = ((z, Some e), w2) →
  ∃ pre s post y w1,
    ss = pre ++ s :: post ∧ AllSucceed pre x w y w1 ∧ s y w1 = ((z, Some e), w2).
Proof.
  revert x w. induction ss as [|s ss IH]; intros x w Hrun; [done|].
  rewrite Execute_loop_cons in Hrun.
  destruct (s x w) as [[c [e'|]] w1] eqn:Hs; cbn [fst snd] in Hrun.
  - simplify_eq. exists [], s, ss, x, w. split; [done|]. split; [constructor | done].
  - destruct (IH _ _ Hrun) as (pre & s' & post & y & w1' & -> & Hpre & Hs').
    exists (s :: pre), s', post, y, w1'. split; [done|].
    split; [econstructor; [exact Hs | exact Hpre] | done].
Qed.

Lemma scan_errs_Some_inv (es : list (option E)) e :
  scan_errs es = Some e →
  ∃ k, es !! k = Some (Some e) ∧ ∀ j, j < k → es !! j = Some None.
Proof.
  induction es as [|[e'|] es IH]; intros Hscan; [done| |].
  - cbn in Hscan. simplify_eq. exists 0. split; [done|]. intros j Hj. lia.
  - destruct (IH Hscan) as (k & Hk & Hbefore). exists (S k). split; [done|].
    intros [|j] Hj; [done|]. apply Hbefore. lia.
Qed.

Lemma scan_errs_None_inv (es : list (option E)) :
  scan_errs es = None → ∀ j, j < length es → es !! j = Some None.
Proof.
  induction es as [|[e'|] es IH]; intros Hscan j Hj; cbn in *; [lia|done|].
  destruct j as [|j]; [done|]. apply IH; [done|lia].
Qed.

Lemma keeps_world_branch_effect ss input idx (w : W) :
  Forall keeps_world ss → branch_effect ss input idx w = w.
Proof.
  intros Hall. unfold branch_effect.
  destruct (ss !! idx) as [s|] eqn:Hs; [|done].
  by apply (Forall_lookup_1 _ _ _ _ Hall Hs).
Qed.

Lemma keeps_world_world_after ss input sched (w : W) :
  Forall keeps_world ss → world_after ss input sched w = w.
Proof.
  intros Hall. unfold world_after. induction sched as [|idx rest IH]; [done|].
  cbn. by rewrite keeps_world_branch_effect.
Qed.

Lemma keeps_world_world_before ss input sched i (w : W) :
  Forall keeps_world ss → world_before ss input sched i w = w.
Proof.
  intros Hall. induction sched as [|idx rest IH]; [done|].
  cbn. case_decide; [done|]. by rewrite keeps_world_branch_effect.
Qed.

(** With branches that leave the world alone, what [Parallel] does is
    read off the step list; the schedule does not appear. *)
Lemma Parallel_keeps_world_run `{!ZeroValue T} sched
    (combiner : list T → Eff W (T * option E)) ss input (w : W) :
  Forall keeps_world ss →
  sched ≡ₚ seq 0 (length ss) →
  Parallel sched combiner ss input w
  = match scan_errs ((λ s : StepFunc T E W, (s input w).1.2) <$> ss) with
    | Some e =>
        ((default zero_value (((λ s : StepFunc T E W, (s input w).1.1) <$> ss) !! 0),
          Some e), w)
    | None => combiner ((λ s : StepFunc T E W, (s input w).1.1) <$> ss) w
    end.
Proof.
  intros Hall Hperm. unfold Parallel, eff_bind.
  rewrite fan_out_complete by done. cbn [fst snd].
  rewrite keeps_world_world_after by done.
  assert (Hr : branch_results ss input sched w
               = (λ s : StepFunc T E W, (s input w).1.1) <$> ss).
  { unfold branch_results. apply list_eq. intros i.
    rewrite list_lookup_imap, list_lookup_fmap.
    destruct (ss !! i); [|done]. cbn. by rewrite keeps_world_world_before. }
  assert (He : branch_errs ss input sched w
               = (λ s : StepFunc T E W, (s input w).1.2) <$> ss).
  { unfold branch_errs. apply list_eq. intros i.
    rewrite list_lookup_imap, list_lookup_fmap.
    destruct (ss !! i); [|done]. cbn. by rewrite keeps_world_world_before. }
  rewrite Hr, He. by destruct (scan_errs _).
Qed.

Lemma steps_build (cs : list (BuilderCall (T:=T) (E:=E) (W:=W))) p :
  steps (build cs p) = steps p ++ registered (middlewares p) cs
  ∧ middlewares (build cs p) = middlewares p ++ used cs.
Proof.
  revert p. induction cs as [|[mw|step] cs IH]; intros p.
  - cbn. by rewrite !app_nil_r.
  - cbn [build foldl builder_call registered used].
    destruct (IH (Use mw p)) as [Hs Hm]. unfold build in Hs, Hm.
    rewrite Hs, Hm. cbn. by rewrite <- app_assoc.
  - cbn [build foldl builder_call registered used].
    destruct (IH (Then step p)) as [Hs Hm]. unfold build in Hs, Hm.
    rewrite Hs, Hm. rewrite steps_Then. cbn. by rewrite <- app_assoc.
Qed.

End more_facts.

(** X1. [Execute] reports no failure exactly when every step, run in
    order on the value and world the one before left, reports none; the
    value and world returned are those the last step left. *)
Theorem Execute_succeeds_iff {T E W : Type} (p : Pipeline T E W) (x y : T) (w w' : W) :
  Execute p x w = ((y, None), w') ↔ AllSucceed (steps p) x w y w'.
Proof.
  unfold Execute. split.
  - apply Execute_loop_success_inv.
  - intros Hall. rewrite <- (app_nil_r (steps p)).
    by rewrite (Execute_loop_app _ _ _ _ _ _ Hall).
Qed.

(** X2. A failure returned by [Execute] is always a step's own: some
    step, reached after all the steps before it succeeded, returned
    exactly that value, that failure and that world. *)
Theorem Execute_failure_origin {T E W : Type} (p : Pipeline T E W)
    (x z : T) (w w2 : W) (e : E) :
  Execute p x w = ((z, Some e), w2) →
  ∃ (pre : list (StepFunc T E W)) (s : StepFunc T E W) (post : list (StepFunc T E W))
    (y : T) (w1 : W),
    steps p = pre ++ s :: post
    ∧ AllSucceed pre x w y w1
    ∧ s y w1 = ((z, Some e), w2).
Proof. apply Execute_loop_failure_inv. Qed.

Lemma Execute_failure_origin_witness :
  Execute (Then counting_dbl (Then (fail_with 20%Z) (Then (Wrap (pure_fn inc)) New))) 3%Z 0
    = ((20%Z, Some "failure"%string), 0)
  ∧ ∃ pre s post y w1,
      steps (Then counting_dbl (Then (fail_with 20%Z) (Then (Wrap (pure_fn inc)) New)))
        = pre ++ s :: post
      ∧ AllSucceed pre 3%Z 0 y w1
      ∧ s y w1 = ((20%Z, Some "failure"%string), 0).
Proof.
  split; [reflexivity|].
  exact (Execute_failure_origin
           (Then counting_dbl (Then (fail_with 20%Z) (Then (Wrap (pure_fn inc)) New)))
           3%Z 20%Z 0 0 "failure"%string eq_refl).
Defined.

(** X3. Running a step list in two parts: when the step list of [p] is
    the step list of [p1] followed by that of [p2], each pipeline taken
    as it stands when it is run, a run of [p] is a run of [p1] and, if
    that reports no failure, a run of [p2] on the value and in the world
    [p1] left; if [p1] fails, its result is the result of [p] and no
    step of [p2] runs. *)
Theorem Execute_concat {T E W : Type} (p p1 p2 : Pipeline T E W) (x : T) (w : W) :
  steps p = steps p1 ++ steps p2 →
  Execute p x w
  = match (Execute p1 x w).1.2 with
    | Some e => Execute p1 x w
    | None => Execute p2 (Execute p1 x w).1.1 (Execute p1 x w).2
    end.
Proof.
  intros Hp. unfold Execute. rewrite Hp. apply Execute_loop_split.
Qed.

Lemma Execute_concat_witness :
  steps (Then counting_dbl (Then (fail_with 20%Z) (Then (Wrap (pure_fn inc)) New)))
    = steps (Then (fail_with 20%Z) (Then (Wrap (pure_fn inc)) New))
      ++ steps (Then counting_dbl New)
  ∧ Execute (Then counting_dbl (Then (fail_with 20%Z) (Then (Wrap (pure_fn inc)) New))) 3%Z 0
    = Execute (Then (fail_with 20%Z) (Then (Wrap (pure_fn inc)) New)) 3%Z 0.
Proof.
  split; [reflexivity|].
  exact (Execute_concat
           (Then counting_dbl (Then (fail_with 20%Z) (Then (Wrap (pure_fn inc)) New)))
           (Then (fail_with 20%Z) (Then (Wrap (pure_fn inc)) New))
           (Then counting_dbl New) 3%Z 0 eq_refl).
Defined.

(** X4. After any chain of [Use] and [Then] calls the step list has
    grown by one step for each [Then], in call order, each wrapped in
    exactly the middleware registered before that call (already there
    or added by an earlier [Use] of the chain), the first registered
    outermost; the middleware list has grown by the [Use]d middleware,
    in call order.  Nothing already registered is changed. *)
Theorem build_registers {T E W : Type} (cs : list (BuilderCall (T:=T) (E:=E) (W:=W)))
    (p : Pipeline T E W) :
  steps (build cs p) = steps p ++ registered (middlewares p) cs
  ∧ middlewares (build cs p) = middlewares p ++ used cs
  ∧ steps (build cs New) = registered [] cs
  ∧ middlewares (build cs New) = used cs.
Proof.
  destruct (steps_build cs p) as [Hs Hm].
  destruct (steps_build cs New) as [Hs0 Hm0].
  by repeat split.
Qed.

(** X5. When every step succeeds, [Execute] calls each step exactly
    once, in registration order: probed with their positions, the steps
    leave the marks [0, 1, ..., n - 1]. *)
Theorem Execute_calls_every_step {T E W : Type} (p : Pipeline T E W)
    (x y : T) (w w' : W) :
  AllSucceed (steps p) x w y w' →
  Execute {| steps := probe_steps (λ j _, j) 0 (steps p); middlewares := [] |} x (w, [])
  = ((y, None), (w', seq 0 (length (steps p)))).
Proof.
  intros Hall. unfold Execute. cbn [steps].
  rewrite <- (app_nil_r (probe_steps _ 0 (steps p))).
  by rewrite (Execute_loop_app _ _ _ _ _ _ (AllSucceed_probe (steps p) 0 x w y w' [] Hall)).
Qed.

Lemma Execute_calls_every_step_witness :
  AllSucceed (steps (Then counting_dbl (Then (Wrap (pure_fn inc)) New))) 3%Z 0 8%Z 1
  ∧ Execute {| steps := probe_steps (λ j _, j) 0
                          (steps (Then counting_dbl (Then (Wrap (pure_fn inc)) New)));
               middlewares := [] |} 3%Z (0, [])
    = ((8%Z, None), (1, [0; 1])).
Proof.
  assert (H : AllSucceed (steps (Then counting_dbl (Then (Wrap (pure_fn inc)) New)))
                3%Z 0 8%Z 1)
    by (econstructor; [reflexivity | econstructor; [reflexivity | constructor]]).
  split; [exact H|].
  exact (Execute_calls_every_step _ 3%Z 8%Z 0 1 H).
Defined.

(** X6. With branches that leave the world alone, the order in which
    the branches run does not matter: under any two schedules that run
    every branch once, [Parallel] returns the same value and failure
    and leaves the same world. *)
Theorem Parallel_schedule_independent {T E W : Type} `{!ZeroValue T}
    (sched1 sched2 : list nat) (combiner : list T → Eff W (T * option E))
    (ss : list (StepFunc T E W)) (input : T) (w : W) :
  Forall keeps_world ss →
  sched1 ≡ₚ seq 0 (length ss) →
  sched2 ≡ₚ seq 0 (length ss) →
  Parallel sched1 combiner ss input w = Parallel sched2 combiner ss input w.
Proof.
  intros Hall H1 H2. by rewrite !Parallel_keeps_world_run.
Qed.

Lemma Parallel_schedule_independent_witness :
  Forall keeps_world [Wrap (E:=string) (W:=unit) (pure_fn inc); fail_with 20%Z]
  ∧ [0; 1] ≡ₚ seq 0 2
  ∧ [1; 0] ≡ₚ seq 0 2
  ∧ Parallel [0; 1] sum_combiner [Wrap (E:=string) (W:=unit) (pure_fn inc); fail_with 20%Z]
      3%Z tt
    = Parallel [1; 0] sum_combiner [Wrap (pure_fn inc); fail_with 20%Z] 3%Z tt.
Proof.
  assert (Hk : Forall keeps_world
                 [Wrap (E:=string) (W:=unit) (pure_fn inc); fail_with 20%Z])
    by (repeat constructor).
  assert (H1 : [0; 1] ≡ₚ seq 0 (length [Wrap (E:=string) (W:=unit) (pure_fn inc);
                                         fail_with 20%Z])) by reflexivity.
  assert (H2 : [1; 0] ≡ₚ seq 0 (length [Wrap (E:=string) (W:=unit) (pure_fn inc);
                                         fail_with 20%Z])) by apply perm_swap.
  split; [exact Hk|]. split; [exact H1|]. split; [exact H2|].
  exact (Parallel_schedule_independent [0; 1] [1; 0] sum_combiner _ 3%Z tt Hk H1 H2).
Defined.

(** X7. A failure returned by [Parallel] is a branch's or the
    combiner's: either it is the failure of the first failing branch in
    list order, or no branch failed and the combiner, applied to the
    results of the branches, returned exactly that value, failure and
    world. *)
Theorem Parallel_failure_origin {T E W : Type} `{!ZeroValue T} (sched : list nat)
    (combiner : list T → Eff W (T * option E)) (ss : list (StepFunc T E W))
    (input v : T) (w w' : W) (e : E) :
  sched ≡ₚ seq 0 (length ss) →
  Parallel sched combiner ss input w = ((v, Some e), w') →
  (∃ k, branch_errs ss input sched w !! k = Some (Some e)
        ∧ (∀ j, j < k → branch_errs ss input sched w !! j = Some None)
        ∧ w' = world_after ss input sched w)
  ∨ ((∀ j, j < length ss → branch_errs ss input sched w !! j = Some None)
     ∧ combiner (branch_results ss input sched w) (world_after ss input sched w)
       = ((v, Some e), w')).
Proof.
  intros Hperm. unfold Parallel, eff_bind. rewrite fan_out_complete by done.
  cbn [fst snd]. destruct (scan_errs _) as [e'|] eqn:Hscan.
  - unfold eff_ret. intros Hrun. simplify_eq. left.
    destruct (scan_errs_Some_inv _ _ Hscan) as (k & Hk & Hbefore). by exists k.
  - intros Hrun. right. split; [|done].
    intros j Hj. apply scan_errs_None_inv; [done|]. by rewrite length_branch_errs.
Qed.

Lemma Parallel_failure_origin_witness :
  [1; 0] ≡ₚ seq 0 2
  ∧ Parallel [1; 0] sum_combiner [counting_dbl; fail_with 20%Z] 3%Z 0
    = ((6%Z, Some "failure"%string), 1)
  ∧ ((∃ k, branch_errs [counting_dbl; fail_with 20%Z] 3%Z [1; 0] 0 !! k
           = Some (Some "failure"%string)
           ∧ (∀ j, j < k →
                branch_errs [counting_dbl; fail_with 20%Z] 3%Z [1; 0] 0 !! j = Some None)
           ∧ 1 = world_after [counting_dbl; fail_with 20%Z] 3%Z [1; 0] 0)
     ∨ ((∀ j, j < 2 →
           branch_errs [counting_dbl; fail_with 20%Z] 3%Z [1; 0] 0 !! j = Some None)
        ∧ sum_combiner (branch_results [counting_dbl; fail_with 20%Z] 3%Z [1; 0] 0)
            (world_after [counting_dbl; fail_with 20%Z] 3%Z [1; 0] 0)
          = ((6%Z, Some "failure"%string), 1))).
Proof.
  assert (Hperm : [1; 0] ≡ₚ seq 0 (length [counting_dbl; fail_with 20%Z]))
    by apply perm_swap.
  split; [exact Hperm|]. split; [reflexivity|].
  exact (Parallel_failure_origin [1; 0] sum_combiner [counting_dbl; fail_with 20%Z]
           3%Z 6%Z 0 1 "failure"%string Hperm eq_refl).
Defined.

(** X8. Success of [Parallel] hides no failure: when it returns no
    failure, no branch failed, and the value and world returned are
    those of the combiner applied to the results of the branches. *)
Theorem Parallel_success_means {T E W : Type} `{!ZeroValue T} (sched : list nat)
    (combiner : list T → Eff W (T * option E)) (ss : list (StepFunc T E W))
    (input v : T) (w w' : W) :
  sched ≡ₚ seq 0 (length ss) →
  Parallel sched combiner ss input w = ((v, None), w') →
  (∀ j, j < length ss → branch_errs ss input sched w !! j = Some None)
  ∧ combiner (branch_results ss input sched w) (world_after ss input sched w)
    = ((v, None), w').
Proof.
  intros Hperm. unfold Parallel, eff_bind. rewrite fan_out_complete by done.
  cbn [fst snd]. destruct (scan_errs _) as [e'|] eqn:Hscan; [done|].
  intros Hrun. split; [|done].
  intros j Hj. apply scan_errs_None_inv; [done|]. by rewrite length_branch_errs.
Qed.

Lemma Parallel_success_means_witness :
  [1; 0] ≡ₚ seq 0 2
  ∧ Parallel [1; 0] sum_combiner [counting_dbl; Wrap (pure_fn inc)] 3%Z 0
    = ((10%Z, None), 1)
  ∧ (∀ j, j < 2 →
       branch_errs [counting_dbl; Wrap (pure_fn inc)] 3%Z [1; 0] 0 !! j = Some None)
  ∧ sum_combiner (branch_results [counting_dbl; Wrap (pure_fn inc)] 3%Z [1; 0] 0)
      (world_after [counting_dbl; Wrap (pure_fn inc)] 3%Z [1; 0] 0)
    = ((10%Z, None), 1).
Proof.
  assert (Hperm : [1; 0] ≡ₚ seq 0 (length [counting_dbl; Wrap (pure_fn inc)]))
    by apply perm_swap.
  split; [exact Hperm|]. split; [reflexivity|].
  exact (Parallel_success_means [1; 0] sum_combiner [counting_dbl; Wrap (pure_fn inc)]
           3%Z 10%Z 0 1 Hperm eq_refl).
Defined.

(** X9. Never failing is kept by [Parallel]: with branches that never
    fail and a combiner that never fails, the step built by [Parallel]
    never fails, under any schedule that runs every branch once. *)
Theorem Parallel_never_fails {T E W : Type} `{!ZeroValue T} (sched : list nat)
    (combiner : list T → Eff W (T * option E)) (ss : list (StepFunc T E W)) :
  Forall never_fails ss →
  (∀ rs w, (combiner rs w).1.2 = None) →
  sched ≡ₚ seq 0 (length ss) →
  never_fails (Parallel sched combiner ss).
Proof.
  intros Hall Hcomb Hperm input w. unfold Parallel, eff_bind.
  rewrite fan_out_complete by done. cbn [fst snd].
  rewrite scan_errs_none; [apply Hcomb|].
  intros j Hj. rewrite length_branch_errs in Hj.
  destruct (lookup_lt_is_Some_2 ss j Hj) as [s Hs].
  unfold branch_errs. rewrite list_lookup_imap, Hs. cbn.
  f_equal. apply (Forall_lookup_1 _ _ _ _ Hall Hs).
Qed.

Lemma Parallel_never_fails_witness :
  Forall never_fails [Wrap (E:=string) (W:=unit) (pure_fn inc); Wrap (pure_fn dbl)]
  ∧ (∀ rs w, (sum_combiner (W:=unit) rs w).1.2 = None)
  ∧ [1; 0] ≡ₚ seq 0 2
  ∧ never_fails (Parallel [1; 0] sum_combiner
                   [Wrap (E:=string) (W:=unit) (pure_fn inc); Wrap (pure_fn dbl)]).
Proof.
  assert (Hn : Forall never_fails
                 [Wrap (E:=string) (W:=unit) (pure_fn inc); Wrap (pure_fn dbl)])
    by (repeat constructor).
  assert (Hc : ∀ rs w, (sum_combiner (W:=unit) rs w).1.2 = None) by reflexivity.
  assert (Hperm : [1; 0] ≡ₚ seq 0 (length [Wrap (E:=string) (W:=unit) (pure_fn inc);
                                            Wrap (pure_fn dbl)])) by apply perm_swap.
  split; [exact Hn|]. split; [exact Hc|]. split; [exact Hperm|].
  exact (Parallel_never_fails [1; 0] sum_combiner _ Hn Hc Hperm).
Defined.

(** X10. [Execute] has no effect of its own: on a pipeline whose steps
    all leave the world alone, a run leaves the world as it found it,
    whether it succeeds or fails. *)
Theorem Execute_keeps_world {T E W : Type} (p : Pipeline T E W) :
  Forall keeps_world (steps p) → keeps_world (Execute p).
Proof.
  unfold Execute. intros Hall x w. revert x.
  induction Hall as [|s ss Hs _ IH]; intros x; [done|].
  rewrite Execute_loop_cons. pose proof (Hs x w) as Hw.
  destruct (s x w) as [[c [e|]] w1]; cbn [fst snd] in *; subst w1; [done|]. apply IH.
Qed.

Lemma Execute_keeps_world_witness :
  Forall keeps_world
    (steps (Then (fail_with 20%Z) (Then (Wrap (E:=string) (W:=nat) (pure_fn inc)) New)))
  ∧ keeps_world
      (Execute (Then (fail_with 20%Z) (Then (Wrap (E:=string) (W:=nat) (pure_fn inc)) New))).
Proof.
  assert (H : Forall keeps_world
                (steps (Then (fail_with 20%Z)
                          (Then (Wrap (E:=string) (W:=nat) (pure_fn inc)) New))))
    by (repeat constructor).
  split; [exact H|].
  exact (Execute_keeps_world _ H).
Defined.

(** X11. [Parallel] has no effect of its own: with branches and a
    combiner that leave the world alone, the step it builds leaves the
    world as it found it, whether a branch fails or not, under any
    schedule that runs every branch once. *)
Theorem Parallel_keeps_world {T E W : Type} `{!ZeroValue T} (sched : list nat)
    (combiner : list T → Eff W (T * option E)) (ss : list (StepFunc T E W)) :
  Forall keeps_world ss →
  (∀ rs w, (combiner rs w).2 = w) →
  sched ≡ₚ seq 0 (length ss) →
  keeps_world (Parallel sched combiner ss).
Proof.
  intros Hall Hcomb Hperm input w.
  rewrite Parallel_keeps_world_run by done.
  destruct (scan_errs _); [done|]. apply Hcomb.
Qed.

Lemma Parallel_keeps_world_witness :
  Forall keeps_world [Wrap (E:=string) (W:=nat) (pure_fn inc); fail_with 20%Z]
  ∧ (∀ rs w, (sum_combiner (W:=nat) rs w).2 = w)
  ∧ [1; 0] ≡ₚ seq 0 2
  ∧ keeps_world (Parallel [1; 0] sum_combiner
                   [Wrap (E:=string) (W:=nat) (pure_fn inc); fail_with 20%Z]).
Proof.
  assert (Hk : Forall keeps_world
                 [Wrap (E:=string) (W:=nat) (pure_fn inc); fail_with 20%Z])
    by (repeat constructor).
  assert (Hc : ∀ rs w, (sum_combiner (W:=nat) rs w).2 = w) by reflexivity.
  assert (Hperm : [1; 0] ≡ₚ seq 0 (length [Wrap (E:=string) (W:=nat) (pure_fn inc);
                                            fail_with 20%Z])) by apply perm_swap.
  split; [exact Hk|]. split; [exact Hc|]. split; [exact Hperm|].
  exact (Parallel_keeps_world [1; 0] sum_combiner _ Hk Hc Hperm).
Defined.
